(** * Polymorphic device types: reactions dispatched onto a SYCL queue

    A shallow embedding of [src/main.cpp].  The program keeps a buffer of
    doubles ([std::vector<double>]) and applies "reactions" to it.  A
    reaction owns a small device type ([DeviceReactionA], [DeviceReactionB])
    whose [apply] updates one double in place; [ReactionBase<DERIVED>::react]
    copies the device type into a kernel and runs it over the index range
    of the buffer with [parallel_for].  The base class [Reaction] gives the
    virtual interface through which [std::shared_ptr<Reaction>] handles
    dispatch.

    Doubles are IEEE 754 binary64 values (Rocq's primitive floats), [int]
    is 32 bits wide and [size_t] 64 bits wide, with their conversions
    written out, and a call that C++ leaves undefined (an accessor read
    outside the buffer, a call through a null handle) evaluates to [None].
    Rocq's floats have a single NaN: the sign and the payload of a
    binary64 NaN are not represented, so no statement below speaks of
    them.
    The SYCL runtime is not part of the program: [Sycl] gives the meaning
    of the one kernel the program submits, on a device that does not
    fault, so that [wait_and_throw] returns. *)

From Stdlib Require Import ZArith Floats Lia.
From stdpp Require Import base option list gmap.

Local Open Scope Z_scope.

(** ** Machine integers and doubles *)

Module Cxx.

Abbreviation double := PrimFloat.float.

(** [std::vector<double>]: the elements in order; [size()] is the length. *)
Abbreviation vector := (list double).

Definition INT_MIN : Z := - 2 ^ 31.
Definition INT_MAX : Z := 2 ^ 31 - 1.
Definition SIZE_MAX : Z := 2 ^ 64 - 1.

(** [size_t] to [int], as in [const int N = io.size()]: the value is
    reduced modulo 2^32 into the signed range. *)
Definition int_of_size_t (n : Z) : Z := (n + 2 ^ 31) mod 2 ^ 32 - 2 ^ 31.

(** [int] to [size_t], as in [sycl::range<1>(N)]: reduced modulo 2^64. *)
Definition size_t_of_int (z : Z) : Z := z mod 2 ^ 64.

(** [int] to [double], as in [d += b]: the integer rounded to binary64
    (exact for every [int]). *)
Definition double_of_int (z : Z) : double :=
  SF2Prim (binary_normalize prec emax z 0 false).

Definition size (v : vector) : Z := Z.of_nat (length v).

(** [std::iota(d.begin(), d.end(), 0)]: the counter is an [int] starting
    at 0, converted to double at each store. *)
Definition iota (n : nat) : vector :=
  map (fun i : nat => double_of_int (Z.of_nat i)) (seq 0 n).

(** [std::shared_ptr<T>]: either null or an object. *)
Definition shared_ptr (T : Type) : Type := option T.

Definition make_shared {T : Type} (x : T) : shared_ptr T := Some x.

End Cxx.

Import Cxx.

(** ** The SYCL executor *)

Module Sycl.

(** A work-item of the kernel [[=](auto id){ device_type.apply(a_io[id]); }]
    performs two memory events on the accessor: it loads [a_io[id]] and,
    later, stores the updated value back.  Between the two it holds the
    loaded value privately. *)
Inductive wi_status : Type :=
| Loaded (v : double)
| Finished.

Abbreviation wi_table := (gmap nat wi_status).

(** A queue fixes, for every range of [n] work-items, the order in which
    the device performs their memory events.  Each work-item contributes
    exactly two events (its load and its store); apart from that the
    interleaving is the device's choice. *)
Record queue : Type := Queue {
  schedule : nat -> list nat;
  schedule_valid : forall n : nat, schedule n ≡ₚ seq 0 n ++ seq 0 n
}.

(** One memory event of work-item [id].  A load outside the buffer is
    undefined behaviour. *)
Definition wi_step (f : double -> double) (id : nat)
    (st : vector * wi_table) : option (vector * wi_table) :=
  let (mem, tbl) := st in
  match tbl !! id with
  | None =>
      match mem !! id with
      | Some v => Some (mem, <[id := Loaded v]> tbl)
      | None => None
      end
  | Some (Loaded v) => Some (<[id := f v]> mem, <[id := Finished]> tbl)
  | Some Finished => Some (mem, tbl)
  end.

Fixpoint run_events (f : double -> double) (evs : list nat)
    (st : vector * wi_table) : option (vector * wi_table) :=
  match evs with
  | [] => Some st
  | id :: evs' =>
      match wi_step f id st with
      | Some st' => run_events f evs' st'
      | None => None
      end
  end.

(** [queue.submit(... h.parallel_for(sycl::range<1>(n), kernel) ...)
    .wait_and_throw()] on a buffer holding [mem]: all events of the [n]
    work-items are performed, then the buffer contents are returned.
    A range of zero work-items over an empty buffer is taken to launch
    nothing; whether a SYCL runtime accepts a zero-sized buffer, accessor
    and range is not decided by the program and is not modelled. *)
Definition parallel_for (q : queue) (n : Z) (f : double -> double)
    (mem : vector) : option vector :=
  match run_events f (schedule q (Z.to_nat n)) (mem, ∅) with
  | Some (mem', _) => Some mem'
  | None => None
  end.

(** Two concrete devices.  [in_order_queue] runs the work-items one after
    the other (a single worker): each loads, then stores, before the next
    one starts. *)
Definition in_order_schedule (n : nat) : list nat :=
  flat_map (fun id => [id; id]) (seq 0 n).

(** [lockstep_queue] has one worker per work-item: every work-item loads
    before any of them stores, and the stores retire in descending
    order. *)
Definition lockstep_schedule (n : nat) : list nat :=
  seq 0 n ++ rev (seq 0 n).

Program Definition in_order_queue : queue := {| schedule := in_order_schedule |}.
Next Obligation.
  intros n. unfold in_order_schedule. generalize (seq 0 n) as l.
  induction l as [|x l IH]; [done|].
  cbn [flat_map app]. rewrite IH.
  constructor. apply Permutation_middle.
Qed.

Program Definition lockstep_queue : queue := {| schedule := lockstep_schedule |}.
Next Obligation.
  intros n. unfold lockstep_schedule. apply Permutation_app_head.
  symmetry. apply Permutation_rev.
Qed.

End Sycl.

Import Sycl.

(** ** Device types *)

(** [struct DeviceReactionA { double a; void apply(double & d) const; }] *)
Record DeviceReactionA : Type := { DeviceReactionA_a : double }.

(** [d *= a] *)
Definition DeviceReactionA_apply (self : DeviceReactionA) (d : double) : double :=
  PrimFloat.mul d (DeviceReactionA_a self).

(** [struct DeviceReactionB { int b; void apply(double & d) const; }] *)
Record DeviceReactionB : Type := { DeviceReactionB_b : Z }.

(** [d += b]: the [int] is converted to double, then added. *)
Definition DeviceReactionB_apply (self : DeviceReactionB) (d : double) : double :=
  PrimFloat.add d (double_of_int (DeviceReactionB_b self)).

(** What [ReactionBase] asks of the type returned by [get_device_data]:
    an [apply] that updates one element. *)
Class DeviceType (D : Type) : Type := apply : D -> double -> double.

#[export] Instance DeviceReactionA_DeviceType : DeviceType DeviceReactionA :=
  DeviceReactionA_apply.
#[export] Instance DeviceReactionB_DeviceType : DeviceType DeviceReactionB :=
  DeviceReactionB_apply.

(** ** Reactions *)

(** [struct ReactionA : ReactionBase<ReactionA> { DeviceReactionA data; ... }] *)
Record ReactionA : Type := { ReactionA_data : DeviceReactionA }.

(** [ReactionA(const double a) { this->data.a = a; }] *)
Definition ReactionA_new (a : double) : ReactionA :=
  {| ReactionA_data := {| DeviceReactionA_a := a |} |}.

(** [struct ReactionB : ReactionBase<ReactionB> { DeviceReactionB data; ... }] *)
Record ReactionB : Type := { ReactionB_data : DeviceReactionB }.

(** [ReactionB(const int b) { this->data.b = b; }] *)
Definition ReactionB_new (b : Z) : ReactionB :=
  {| ReactionB_data := {| DeviceReactionB_b := b |} |}.

(** What the template [ReactionBase<DERIVED_REACTION>] asks of its
    parameter: [get_device_data() const], returning a device type. *)
Class DerivedReaction (R : Type) : Type := {
  device_type : Type;
  device_type_apply :: DeviceType device_type;
  get_device_data : R -> device_type
}.

#[export] Instance ReactionA_Derived : DerivedReaction ReactionA :=
  {| device_type := DeviceReactionA; get_device_data := ReactionA_data |}.
#[export] Instance ReactionB_Derived : DerivedReaction ReactionB :=
  {| device_type := DeviceReactionB; get_device_data := ReactionB_data |}.

(** [ReactionBase<DERIVED_REACTION>::react(queue, io)].  The call returns
    the object and the buffer as they are when it ends. *)
Definition ReactionBase_react {R : Type} `{DerivedReaction R}
    (queue : Sycl.queue) (self : R) (io : vector) : option (R * vector) :=
  let underlying := self in
  let device_type := get_device_data underlying in
  let N := int_of_size_t (size io) in
  let b_io := io in
  match parallel_for queue (size_t_of_int N) (apply device_type) b_io with
  | Some b_io' => Some (self, b_io')
  | None => None
  end.

(** ** The class hierarchy and dynamic dispatch *)

Inductive class_name : Type :=
| C_Reaction
| C_ReactionBase_ReactionA
| C_ReactionBase_ReactionB
| C_ReactionA
| C_ReactionB.

#[export] Instance class_name_eq_dec : EqDecision class_name.
Proof. solve_decision. Defined.

(** The (single, public) base named in each [struct] declaration. *)
Definition direct_base (c : class_name) : option class_name :=
  match c with
  | C_Reaction => None
  | C_ReactionBase_ReactionA => Some C_Reaction
  | C_ReactionBase_ReactionB => Some C_Reaction
  | C_ReactionA => Some C_ReactionBase_ReactionA
  | C_ReactionB => Some C_ReactionBase_ReactionB
  end.

(** [c] is [base] or derives from it, following at most [depth] bases. *)
Fixpoint derives_from (depth : nat) (c base : class_name) : bool :=
  if decide (c = base) then true
  else match depth with
       | O => false
       | S depth' =>
           match direct_base c with
           | Some p => derives_from depth' p base
           | None => false
           end
       end.

Definition is_base_of (base c : class_name) : bool := derives_from 4 c base.

(** An object seen through [Reaction &]: a plain [Reaction], or the
    [Reaction] subobject of a [ReactionA] or of a [ReactionB]. *)
Inductive Reaction : Type :=
| Reaction_plain
| Reaction_of_A (r : ReactionA)
| Reaction_of_B (r : ReactionB).

Definition dynamic_class (rx : Reaction) : class_name :=
  match rx with
  | Reaction_plain => C_Reaction
  | Reaction_of_A _ => C_ReactionA
  | Reaction_of_B _ => C_ReactionB
  end.

(** [virtual inline void react(sycl::queue &, std::vector<double> &) {}] *)
Definition Reaction_react (queue : Sycl.queue) (self : Reaction) (io : vector)
    : option (Reaction * vector) :=
  Some (self, io).

(** A virtual call [rx.react(queue, io)]: the final overrider of the
    dynamic class runs. *)
Definition react (queue : Sycl.queue) (rx : Reaction) (io : vector)
    : option (Reaction * vector) :=
  match rx with
  | Reaction_plain => Reaction_react queue rx io
  | Reaction_of_A r =>
      match ReactionBase_react queue r io with
      | Some (r', io') => Some (Reaction_of_A r', io')
      | None => None
      end
  | Reaction_of_B r =>
      match ReactionBase_react queue r io with
      | Some (r', io') => Some (Reaction_of_B r', io')
      | None => None
      end
  end.

(** [rx->react(queue, io)] on a handle; a null handle is undefined
    behaviour. *)
Definition handle_react (queue : Sycl.queue) (rx : shared_ptr Reaction)
    (io : vector) : option (shared_ptr Reaction * vector) :=
  match rx with
  | Some obj =>
      match react queue obj io with
      | Some (obj', io') => Some (Some obj', io')
      | None => None
      end
  | None => None
  end.

(** A class that can be named as [REACTION] in [make_reaction]: it has a
    place in the hierarchy, a view as [Reaction] when it derives from it,
    and a constructor from the argument pack. *)
Class ReactionClass (R : Type) : Type := {
  class_of : class_name;
  ctor_args : Type;
  construct : ctor_args -> R;
  as_Reaction : R -> Reaction
}.

#[export] Instance ReactionA_Class : ReactionClass ReactionA :=
  {| class_of := C_ReactionA; ctor_args := double;
     construct := ReactionA_new; as_Reaction := Reaction_of_A |}.
#[export] Instance ReactionB_Class : ReactionClass ReactionB :=
  {| class_of := C_ReactionB; ctor_args := Z;
     construct := ReactionB_new; as_Reaction := Reaction_of_B |}.

(** [std::dynamic_pointer_cast<Reaction>(r)]: null stays null; otherwise
    the cast yields the [Reaction] view when [Reaction] is a base of the
    object's class, and null when it is not. *)
Definition dynamic_pointer_cast_Reaction {R : Type} `{ReactionClass R}
    (r : shared_ptr R) : shared_ptr Reaction :=
  match r with
  | Some obj =>
      if is_base_of C_Reaction (class_of (R := R))
      then Some (as_Reaction obj) else None
  | None => None
  end.

(** [template<typename REACTION, typename... ARGS>
     std::shared_ptr<Reaction> make_reaction(ARGS... args)] *)
Definition make_reaction (R : Type) `{ReactionClass R} (args : ctor_args)
    : shared_ptr Reaction :=
  let r := make_shared (construct args) in
  dynamic_pointer_cast_Reaction r.

(** ** The driver *)

(** The literal [0.1]: the double nearest to one tenth,
    0x1.999999999999ap-4. *)
#[warnings="-inexact-float"]
Definition lit_0_1 : double := 0.1%float.

(** The [for (auto rx : reactions) { rx->react(queue, d); lambda_print(); }]
    loop; [out] collects what [lambda_print] shows. *)
Fixpoint react_all (queue : Sycl.queue) (reactions : list (shared_ptr Reaction))
    (d : vector) (out : list vector) : option (vector * list vector) :=
  match reactions with
  | [] => Some (d, out)
  | rx :: rest =>
      match handle_react queue rx d with
      | Some (_, d') => react_all queue rest d' (out ++ [d'])
      | None => None
      end
  end.

(** [main]: the buffers shown by the five calls of [lambda_print]. *)
Definition main (queue : Sycl.queue) : option (list vector) :=
  let N := 32%nat in
  let d := iota N in
  let out := [d] in
  let a := ReactionA_new lit_0_1 in
  match ReactionBase_react queue a d with
  | None => None
  | Some (_, d) =>
      let out := out ++ [d] in
      let b := ReactionB_new 2 in
      match ReactionBase_react queue b d with
      | None => None
      | Some (_, d) =>
          let out := out ++ [d] in
          let d := iota N in
          let reactions :=
            [make_reaction ReactionA lit_0_1; make_reaction ReactionB 2] in
          match react_all queue reactions d out with
          | Some (_, out) => Some out
          | None => None
          end
      end
  end.

(** * Vocabulary of the statements *)

(** How far work-item [id] has got. *)
Definition wi_pc (tbl : wi_table) (id : nat) : nat :=
  match tbl !! id with
  | None => 0
  | Some (Loaded _) => 1
  | Some Finished => 2
  end.

(** What the memory holds at [id], given how far the work-item has got:
    the original element until the store, the updated one after it. *)
Definition wi_inv (f : double -> double) (io mem : vector) (tbl : wi_table)
    : Prop :=
  length mem = length io /\
  forall id : nat,
    match tbl !! id with
    | None => mem !! id = io !! id
    | Some (Loaded v) => io !! id = Some v /\ mem !! id = Some v
    | Some Finished => is_Some (io !! id) /\ mem !! id = f <$> io !! id
    end.

(** The updated buffer: the first [k] elements mapped, the rest kept. *)
Definition map_prefix (f : double -> double) (k : nat) (mem : vector) : vector :=
  (f <$> take k mem) ++ drop k mem.

(** The number of work-items launched for a buffer of [n] elements:
    [n] narrowed to [int], then widened to [size_t] for the range. *)
Definition launched (n : Z) : nat := Z.to_nat (size_t_of_int (int_of_size_t n)).

(** The element update a reaction launches, if it launches one. *)
Definition kernel_of (rx : Reaction) : option (double -> double) :=
  match rx with
  | Reaction_plain => None
  | Reaction_of_A r => Some (apply (get_device_data r))
  | Reaction_of_B r => Some (apply (get_device_data r))
  end.

(** A buffer of 2^32 + 1 doubles, all equal to one. *)
Definition long_buffer : vector := replicate (Z.to_nat (2 ^ 32 + 1)) 1%float.

Definition long_buffer_tail : vector := replicate (Z.to_nat (2 ^ 32 - 1)) 1%float.

(** [a.react(queue, d); b.react(queue, d);] on concrete reactions. *)
Definition multiply_then_add (q : queue) (a : double) (b : Z) (buf : vector)
    : option vector :=
  match ReactionBase_react q (ReactionA_new a) buf with
  | Some (_, buf1) =>
      match ReactionBase_react q (ReactionB_new b) buf1 with
      | Some (_, buf2) => Some buf2
      | None => None
      end
  | None => None
  end.

(** The two element updates of the scenario. *)
Definition times_0_1 (d : double) : double := PrimFloat.mul d lit_0_1.
Definition plus_2 (d : double) : double := PrimFloat.add d (double_of_int 2).

(** The buffers of the scenario as the specification writes them: each
    decimal is read as the double nearest to it. *)
#[warnings="-inexact-float"]
Definition spec_after_multiply : vector :=
  [0.0; 0.1; 0.2; 0.3; 0.4; 0.5; 0.6; 0.7; 0.8; 0.9;
   1.0; 1.1; 1.2; 1.3; 1.4; 1.5; 1.6; 1.7; 1.8; 1.9;
   2.0; 2.1; 2.2; 2.3; 2.4; 2.5; 2.6; 2.7; 2.8; 2.9;
   3.0; 3.1]%float.

#[warnings="-inexact-float"]
Definition spec_after_add : vector :=
  [2.0; 2.1; 2.2; 2.3; 2.4; 2.5; 2.6; 2.7; 2.8; 2.9;
   3.0; 3.1; 3.2; 3.3; 3.4; 3.5; 3.6; 3.7; 3.8; 3.9;
   4.0; 4.1; 4.2; 4.3; 4.4; 4.5; 4.6; 4.7; 4.8; 4.9;
   5.0; 5.1]%float.

(** [v] with the elements at the indices [idxs] replaced by the next
    double above. *)
Definition one_ulp_up (idxs : list nat) (v : vector) : vector :=
  imap (fun i x => if bool_decide (i ∈ idxs) then next_up x else x) v.

(** What a [react] call on [rx] makes of a buffer whose length fits an
    [int]: the element update of the reaction on every element, or
    nothing for a plain [Reaction]. *)
Definition effect (rx : Reaction) (d : vector) : vector :=
  from_option (fun f => f <$> d) d (kernel_of rx).

(** The buffers [lambda_print] shows during the loop over the reactions
    [rxs], starting from the buffer [d]. *)
Fixpoint shown (rxs : list Reaction) (d : vector) : list vector :=
  match rxs with
  | [] => []
  | rx :: rest => effect rx d :: shown rest (effect rx d)
  end.

(** * Properties *)

(** ** The executor runs every work-item exactly once *)

Section Executor.

Variable f : double -> double.
Variable io : vector.

Lemma wi_inv_init : wi_inv f io io ∅.
Proof.
  split; [reflexivity|]. intros id. by rewrite lookup_empty.
Qed.

Lemma wi_pc_empty (id : nat) : wi_pc ∅ id = 0%nat.
Proof. unfold wi_pc. by rewrite lookup_empty. Qed.

Lemma wi_step_in_range (mem : vector) (tbl : wi_table) (id : nat) :
  wi_inv f io mem tbl -> (id < length io)%nat ->
  exists mem' tbl',
    wi_step f id (mem, tbl) = Some (mem', tbl') /\
    wi_inv f io mem' tbl' /\
    forall j : nat,
      wi_pc tbl' j =
        if decide (j = id) then Nat.min 2 (S (wi_pc tbl id)) else wi_pc tbl j.
Proof.
  intros [Hlen Hinv] Hid.
  destruct (lookup_lt_is_Some_2 io id Hid) as [x Hx].
  pose proof (Hinv id) as Hat.
  unfold wi_step, wi_pc.
  destruct (tbl !! id) as [[v|]|] eqn:Htbl.
  - (* the store *)
    destruct Hat as [Hio Hmem].
    exists (<[id := f v]> mem), (<[id := Finished]> tbl).
    split; [reflexivity|]. split.
    + split; [by rewrite length_insert|].
      intros j. destruct (decide (j = id)) as [->|Hne].
      * rewrite lookup_insert_eq. split; [eauto|].
        rewrite list_lookup_insert_eq by lia. by rewrite Hio.
      * rewrite lookup_insert_ne by done.
        rewrite list_lookup_insert_ne by done. apply Hinv.
    + intros j. destruct (decide (j = id)) as [->|Hne].
      * by rewrite lookup_insert_eq.
      * by rewrite lookup_insert_ne.
  - (* already finished *)
    exists mem, tbl. split; [reflexivity|]. split; [by split|].
    intros j. destruct (decide (j = id)) as [->|Hne]; [by rewrite Htbl|done].
  - (* the load *)
    rewrite Hat, Hx.
    exists mem, (<[id := Loaded x]> tbl).
    split; [reflexivity|]. split.
    + split; [done|].
      intros j. destruct (decide (j = id)) as [->|Hne].
      * rewrite lookup_insert_eq. by rewrite Hat.
      * rewrite lookup_insert_ne by done. apply Hinv.
    + intros j. destruct (decide (j = id)) as [->|Hne].
      * by rewrite lookup_insert_eq.
      * by rewrite lookup_insert_ne.
Qed.

Lemma wi_step_out_of_range (mem : vector) (tbl : wi_table) (id : nat) :
  wi_inv f io mem tbl -> (length io <= id)%nat ->
  wi_step f id (mem, tbl) = None.
Proof.
  intros [Hlen Hinv] Hid.
  pose proof (Hinv id) as Hat.
  assert (Hnone : io !! id = None) by (by apply lookup_ge_None_2).
  unfold wi_step.
  destruct (tbl !! id) as [[v|]|].
  - destruct Hat as [Hio _]. congruence.
  - destruct Hat as [[y Hy] _]. congruence.
  - by rewrite Hat, Hnone.
Qed.

Lemma run_events_in_range (evs : list nat) (mem : vector) (tbl : wi_table) :
  wi_inv f io mem tbl ->
  Forall (fun id => (id < length io)%nat) evs ->
  exists mem' tbl',
    run_events f evs (mem, tbl) = Some (mem', tbl') /\
    wi_inv f io mem' tbl' /\
    forall j : nat,
      wi_pc tbl' j = Nat.min 2 (wi_pc tbl j + count_occ Nat.eq_dec evs j).
Proof.
  revert mem tbl.
  induction evs as [|id evs IH]; intros mem tbl Hinv Hall.
  - exists mem, tbl. split; [reflexivity|]. split; [done|].
    intros j. cbn. rewrite Nat.add_0_r.
    unfold wi_pc. by destruct (tbl !! j) as [[?|]|].
  - inversion Hall as [|? ? Hid Hrest]; subst.
    destruct (wi_step_in_range mem tbl id Hinv Hid)
      as (mem1 & tbl1 & Hstep & Hinv1 & Hpc1).
    destruct (IH mem1 tbl1 Hinv1 Hrest) as (mem2 & tbl2 & Hrun & Hinv2 & Hpc2).
    exists mem2, tbl2. cbn [run_events]. rewrite Hstep.
    split; [done|]. split; [done|].
    intros j. rewrite Hpc2, Hpc1. cbn [count_occ].
    destruct (Nat.eq_dec id j) as [->|Hne].
    + rewrite decide_True by done. lia.
    + rewrite decide_False by done. lia.
Qed.

Lemma run_events_out_of_range (evs : list nat) (mem : vector) (tbl : wi_table) :
  wi_inv f io mem tbl ->
  Exists (fun id => (length io <= id)%nat) evs ->
  run_events f evs (mem, tbl) = None.
Proof.
  revert mem tbl.
  induction evs as [|id evs IH]; intros mem tbl Hinv Hex.
  - inversion Hex.
  - cbn [run_events].
    destruct (decide (id < length io)%nat) as [Hid|Hid].
    + destruct (wi_step_in_range mem tbl id Hinv Hid)
        as (mem1 & tbl1 & Hstep & Hinv1 & _).
      rewrite Hstep. apply IH; [done|].
      inversion Hex; subst; [lia|done].
    + rewrite wi_step_out_of_range; [done|done|lia].
Qed.

End Executor.

Lemma count_occ_seq (k j : nat) :
  count_occ Nat.eq_dec (seq 0 k) j = if decide (j < k)%nat then 1%nat else 0%nat.
Proof.
  case_decide as Hj.
  - apply NoDup_count_occ'; [apply List.seq_NoDup|]. apply in_seq. lia.
  - apply count_occ_not_In. rewrite in_seq. lia.
Qed.

Lemma schedule_count (q : queue) (k j : nat) :
  count_occ Nat.eq_dec (schedule q k) j = if decide (j < k)%nat then 2%nat else 0%nat.
Proof.
  pose proof (proj1 (Permutation_count_occ Nat.eq_dec (schedule q k)
                      (seq 0 k ++ seq 0 k)) (schedule_valid q k) j) as Hcount.
  rewrite Hcount, count_occ_app, count_occ_seq. by case_decide.
Qed.

Lemma schedule_ids (q : queue) (k id : nat) :
  id ∈ schedule q k <-> (id < k)%nat.
Proof.
  rewrite (schedule_valid q k), elem_of_app, !elem_of_seq. lia.
Qed.

Lemma map_prefix_lookup (f : double -> double) (k : nat) (mem : vector) (j : nat) :
  map_prefix f k mem !! j =
    if decide (j < k)%nat then f <$> mem !! j else mem !! j.
Proof.
  unfold map_prefix. case_decide as Hj.
  - destruct (decide (j < length mem)%nat) as [Hlt|Hge].
    + rewrite lookup_app_l by (rewrite length_fmap, length_take; lia).
      rewrite list_lookup_fmap, lookup_take_lt by done. done.
    + rewrite (lookup_ge_None_2 mem j) by lia.
      apply lookup_ge_None_2.
      rewrite length_app, length_fmap, length_take, length_drop. lia.
  - destruct (decide (k <= length mem)%nat) as [Hk|Hk].
    + rewrite lookup_app_r by (rewrite length_fmap, length_take; lia).
      rewrite length_fmap, length_take, lookup_drop.
      f_equal. lia.
    + rewrite take_ge, drop_ge by lia.
      rewrite app_nil_r.
      rewrite !lookup_ge_None_2; [done|lia|rewrite length_fmap; lia].
Qed.

Lemma map_prefix_length (f : double -> double) (k : nat) (mem : vector) :
  length (map_prefix f k mem) = length mem.
Proof.
  unfold map_prefix. rewrite length_app, length_fmap, length_take, length_drop. lia.
Qed.

Lemma map_prefix_all (f : double -> double) (mem : vector) :
  map_prefix f (length mem) mem = f <$> mem.
Proof.
  unfold map_prefix. by rewrite firstn_all, drop_all, app_nil_r.
Qed.

Lemma map_prefix_0 (f : double -> double) (mem : vector) :
  map_prefix f 0 mem = mem.
Proof. reflexivity. Qed.

(** Whatever interleaving the queue picks, a range that fits the buffer
    updates exactly its elements, each once; a range that exceeds the
    buffer reads outside it. *)
Lemma parallel_for_spec (q : queue) (n : Z) (f : double -> double) (mem : vector) :
  parallel_for q n f mem =
    if decide (Z.to_nat n <= length mem)%nat
    then Some (map_prefix f (Z.to_nat n) mem) else None.
Proof.
  unfold parallel_for. set (k := Z.to_nat n).
  case_decide as Hk.
  - assert (Hall : Forall (fun id => (id < length mem)%nat) (schedule q k)).
    { apply Forall_forall. intros id Hid. apply schedule_ids in Hid. lia. }
    destruct (run_events_in_range f mem (schedule q k) mem ∅ (wi_inv_init f mem) Hall)
      as (mem' & tbl' & Hrun & [Hlen Hinv] & Hpc).
    rewrite Hrun. f_equal.
    apply list_eq. intros j.
    rewrite map_prefix_lookup.
    specialize (Hinv j). specialize (Hpc j).
    rewrite wi_pc_empty, schedule_count in Hpc. unfold wi_pc in Hpc.
    case_decide as Hj.
    + destruct (tbl' !! j) as [[v|]|]; cbn in Hpc; try lia. by destruct Hinv.
    + destruct (tbl' !! j) as [[v|]|]; cbn in Hpc; try lia. done.
  - rewrite (run_events_out_of_range f mem); [done|apply wi_inv_init|].
    apply Exists_exists. exists (length mem). split; [|lia].
    apply schedule_ids. lia.
Qed.

(** ** What one [react] call does *)

Lemma ReactionBase_react_spec {R : Type} `{DerivedReaction R}
    (q : queue) (self : R) (io : vector) :
  ReactionBase_react q self io =
    if decide (launched (size io) <= length io)%nat
    then Some (self, map_prefix (apply (get_device_data self)) (launched (size io)) io)
    else None.
Proof.
  unfold ReactionBase_react. rewrite parallel_for_spec.
  fold (launched (size io)). by case_decide.
Qed.

Lemma launched_fits (n : Z) : 0 <= n <= INT_MAX -> launched n = Z.to_nat n.
Proof.
  unfold launched, size_t_of_int, int_of_size_t, INT_MAX. intros Hn.
  rewrite (Z.mod_small (n + 2 ^ 31)) by lia.
  rewrite Z.mod_small by lia. f_equal. lia.
Qed.

Lemma launched_wraps (m r : Z) :
  0 <= m -> 0 <= r <= INT_MAX -> launched (2 ^ 32 * m + r) = Z.to_nat r.
Proof.
  unfold launched, size_t_of_int, int_of_size_t, INT_MAX. intros Hm Hr.
  replace (2 ^ 32 * m + r + 2 ^ 31) with (r + 2 ^ 31 + m * 2 ^ 32) by lia.
  rewrite Z.mod_add by lia.
  rewrite (Z.mod_small (r + 2 ^ 31)) by lia.
  rewrite Z.mod_small by lia. f_equal. lia.
Qed.

Lemma launched_negative (n : Z) :
  INT_MAX < n < 2 ^ 32 -> launched n = Z.to_nat (2 ^ 64 - 2 ^ 32 + n).
Proof.
  unfold launched, size_t_of_int, int_of_size_t, INT_MAX. intros Hn.
  replace (n + 2 ^ 31) with (n - 2 ^ 31 + 1 * 2 ^ 32) by lia.
  rewrite Z.mod_add by lia.
  rewrite (Z.mod_small (n - 2 ^ 31)) by lia.
  replace (n - 2 ^ 31 - 2 ^ 31) with (2 ^ 64 - 2 ^ 32 + n + -1 * 2 ^ 64) by lia.
  rewrite Z.mod_add by lia.
  rewrite Z.mod_small by lia. reflexivity.
Qed.

(** A buffer of [2^32 * m + r] elements is narrowed to [N = r]: only the
    first [r] elements are updated. *)
Lemma ReactionBase_react_wraps {R : Type} `{DerivedReaction R}
    (q : queue) (self : R) (io : vector) (m r : Z) :
  0 <= m -> 0 <= r <= INT_MAX -> size io = 2 ^ 32 * m + r ->
  ReactionBase_react q self io =
    Some (self, map_prefix (apply (get_device_data self)) (Z.to_nat r) io).
Proof.
  intros Hm Hr Hsize. rewrite ReactionBase_react_spec, Hsize.
  rewrite launched_wraps by done.
  rewrite decide_True; [done|]. unfold size in Hsize. nia.
Qed.

(** A buffer of more than [INT_MAX] and less than [2^32] elements is
    narrowed to a negative [N]: the range exceeds the buffer and the call
    is undefined. *)
Lemma ReactionBase_react_negative {R : Type} `{DerivedReaction R}
    (q : queue) (self : R) (io : vector) :
  INT_MAX < size io < 2 ^ 32 -> ReactionBase_react q self io = None.
Proof.
  intros Hsize. rewrite ReactionBase_react_spec.
  rewrite launched_negative by done.
  rewrite decide_False; [done|]. unfold size in *. lia.
Qed.

Lemma ReactionBase_react_fits {R : Type} `{DerivedReaction R}
    (q : queue) (self : R) (io : vector) :
  size io <= INT_MAX ->
  ReactionBase_react q self io = Some (self, apply (get_device_data self) <$> io).
Proof.
  intros Hfit. rewrite ReactionBase_react_spec.
  rewrite launched_fits by (unfold size in *; lia).
  unfold size. rewrite Nat2Z.id, decide_True by done.
  by rewrite map_prefix_all.
Qed.

(** C10: [Reaction::react] has an empty body, so a virtual call on a plain
    base [Reaction] object leaves the object and every element of the
    buffer as they were, and the queue plays no part in the result. *)
Theorem base_react_is_noop (q : queue) (io : vector) :
  react q Reaction_plain io = Some (Reaction_plain, io) /\
  handle_react q (Some Reaction_plain) io = Some (Some Reaction_plain, io).
Proof. split; reflexivity. Qed.

Lemma react_spec (q : queue) (rx : Reaction) (io : vector) :
  react q rx io =
    match kernel_of rx with
    | None => Some (rx, io)
    | Some f =>
        if decide (launched (size io) <= length io)%nat
        then Some (rx, map_prefix f (launched (size io)) io)
        else None
    end.
Proof.
  destruct rx as [|r|r]; cbn [react kernel_of]; [done| |];
    rewrite ReactionBase_react_spec; by case_decide.
Qed.

Lemma react_fits (q : queue) (rx : Reaction) (io : vector) :
  size io <= INT_MAX ->
  react q rx io = Some (rx, from_option (fun f => f <$> io) io (kernel_of rx)).
Proof.
  intros Hfit. destruct rx as [|r|r]; cbn [react kernel_of from_option]; [done| |];
    by rewrite ReactionBase_react_fits.
Qed.

(** When a single work-item is launched, the first element is updated and
    all the others are kept. *)
Lemma react_one_launched {R : Type} `{DerivedReaction R}
    (q : queue) (self : R) (x : double) (rest : vector) :
  launched (size (x :: rest)) = 1%nat ->
  ReactionBase_react q self (x :: rest) =
    Some (self, apply (get_device_data self) x :: rest).
Proof.
  intros Hone. rewrite ReactionBase_react_spec, Hone.
  rewrite decide_True by (cbn [length]; lia). reflexivity.
Qed.

Lemma replicate_succ {A : Type} (n : nat) (x : A) :
  replicate (S n) x = x :: replicate n x.
Proof. reflexivity. Qed.

Lemma long_buffer_cons : long_buffer = 1%float :: 1%float :: long_buffer_tail.
Proof.
  unfold long_buffer, long_buffer_tail.
  replace (2 ^ 32 + 1) with (Z.succ (Z.succ (2 ^ 32 - 1))) by lia.
  rewrite !Z2Nat.inj_succ by lia.
  rewrite !replicate_succ. exact eq_refl.
Qed.

Lemma long_buffer_size : size long_buffer = 2 ^ 32 * 1 + 1.
Proof.
  unfold size, long_buffer. rewrite length_replicate. lia.
Qed.

Lemma long_buffer_launched : launched (size long_buffer) = 1%nat.
Proof.
  rewrite long_buffer_size, launched_wraps; unfold INT_MAX; lia.
Qed.

(** On the long buffer a single work-item is launched. *)
Lemma react_long_buffer {R : Type} `{DerivedReaction R} (q : queue) (self : R) :
  ReactionBase_react q self long_buffer =
    Some (self, apply (get_device_data self) 1%float :: 1%float :: long_buffer_tail).
Proof.
  pose proof long_buffer_launched as Hone.
  rewrite long_buffer_cons in Hone |- *.
  by apply react_one_launched.
Qed.

Lemma size_cons (x : double) (l : vector) : size (x :: l) = Z.succ (size l).
Proof. unfold size. cbn [length]. lia. Qed.

Lemma launched_one_cons (x y : double) (l : vector) :
  launched (size (x :: l)) = 1%nat -> launched (size (y :: l)) = 1%nat.
Proof. by rewrite !size_cons. Qed.

Lemma double_neq (x y : double) : Prim2SF x <> Prim2SF y -> x <> y.
Proof. intros Hne ->. by apply Hne. Qed.

Lemma second_differs (x y x' y' : double) (l l' : vector) :
  y <> y' -> x :: y :: l <> x' :: y' :: l'.
Proof. intros Hne Heq. apply Hne. congruence. Qed.

Lemma result_differs {R : Type} (r r' : R) (v v' : vector) :
  v <> v' -> Some (r, v) <> Some (r', v').
Proof. intros Hne Heq. apply Hne. congruence. Qed.

(** Two returned buffers differ because their elements at index 1 are
    different doubles. *)
Ltac second_element_differs :=
  apply second_differs, double_neq; by vm_compute.

(** ** The multiply and add reactions *)

(** On a buffer whose length fits an [int], [ReactionA(a).react] multiplies
    every element by [a]. *)
Lemma multiply_react_fits (q : queue) (a : double) (buf : vector) :
  size buf <= INT_MAX ->
  ReactionBase_react q (ReactionA_new a) buf =
    Some (ReactionA_new a, (fun d => PrimFloat.mul d a) <$> buf).
Proof. intros Hfit. by rewrite ReactionBase_react_fits. Qed.

(** On a buffer whose length fits an [int], [ReactionB(b).react] adds [b]
    to every element. *)
Lemma add_react_fits (q : queue) (b : Z) (buf : vector) :
  size buf <= INT_MAX ->
  ReactionBase_react q (ReactionB_new b) buf =
    Some (ReactionB_new b, (fun d => PrimFloat.add d (double_of_int b)) <$> buf).
Proof. intros Hfit. by rewrite ReactionBase_react_fits. Qed.

(** C1: on the buffer of 2^32 + 1 ones, [ReactionA(2).react] narrows the
    size to [N = 1] and launches one work-item: the first element becomes
    2 and every other element stays 1, which is not the elementwise
    product of the buffer with 2. *)
Theorem multiply_react_truncates (q : queue) :
  ReactionBase_react q (ReactionA_new 2) long_buffer =
    Some (ReactionA_new 2, 2%float :: 1%float :: long_buffer_tail) /\
  ReactionBase_react q (ReactionA_new 2) long_buffer <>
    Some (ReactionA_new 2, (fun d => PrimFloat.mul d 2) <$> long_buffer).
Proof.
  rewrite react_long_buffer. split; [reflexivity|].
  rewrite long_buffer_cons, !fmap_cons.
  apply result_differs. second_element_differs.
Qed.

(** C2: on the buffer of 2^32 + 1 ones, [ReactionB(2).react] launches one
    work-item: the first element becomes 3 and every other element stays
    1, which is not the buffer with 2 added to each element. *)
Theorem add_react_truncates (q : queue) :
  ReactionBase_react q (ReactionB_new 2) long_buffer =
    Some (ReactionB_new 2, 3%float :: 1%float :: long_buffer_tail) /\
  ReactionBase_react q (ReactionB_new 2) long_buffer <>
    Some (ReactionB_new 2,
          (fun d => PrimFloat.add d (double_of_int 2)) <$> long_buffer).
Proof.
  rewrite react_long_buffer. split; [reflexivity|].
  rewrite long_buffer_cons, !fmap_cons.
  apply result_differs. second_element_differs.
Qed.

(** On a buffer whose length fits an [int], multiply then add is the
    composed transform, multiplication first. *)
Lemma multiply_then_add_fits (q : queue) (a : double) (b : Z) (buf : vector) :
  size buf <= INT_MAX ->
  multiply_then_add q a b buf =
    Some ((fun x => PrimFloat.add (PrimFloat.mul x a) (double_of_int b)) <$> buf).
Proof.
  intros Hfit. unfold multiply_then_add.
  rewrite multiply_react_fits by done.
  rewrite add_react_fits by (unfold size in *; by rewrite length_fmap).
  by rewrite <- list_fmap_compose.
Qed.

(** C4: on the buffer of 2^32 + 1 ones, multiply by 2 then add 2 gives
    (1*2)+2 = 4 at index 0 only; every other element stays 1, which is
    not the composed transform applied elementwise. *)
Theorem multiply_then_add_truncates (q : queue) :
  multiply_then_add q 2 2 long_buffer =
    Some (4%float :: 1%float :: long_buffer_tail) /\
  multiply_then_add q 2 2 long_buffer <>
    Some ((fun x => PrimFloat.add (PrimFloat.mul x 2) (double_of_int 2))
            <$> long_buffer).
Proof.
  unfold multiply_then_add. rewrite react_long_buffer.
  rewrite react_one_launched.
  - split; [reflexivity|].
    rewrite long_buffer_cons, !fmap_cons. intros Heq.
    apply (inj Some) in Heq. revert Heq. second_element_differs.
  - pose proof long_buffer_launched as Hone.
    rewrite long_buffer_cons in Hone.
    by apply (launched_one_cons 1%float).
Qed.

(** ** Frame conditions and determinism *)

(** C7: a [react] call that is defined returns a buffer of the length it
    was given and the reaction with the parameters it had, so a later
    call behaves as it would have on the original reaction; the call is
    undefined only when the length of the buffer does not fit an [int]. *)
Theorem react_preserves (q : queue) (rx : Reaction) (io : vector) :
  match react q rx io with
  | Some (rx', io') =>
      rx' = rx /\ length io' = length io /\
      forall (q2 : queue) (io2 : vector), react q2 rx' io2 = react q2 rx io2
  | None => INT_MAX < size io
  end.
Proof.
  destruct (decide (size io <= INT_MAX)) as [Hfit|Hlong].
  - rewrite react_fits by done. split; [done|]. split; [|done].
    destruct (kernel_of rx); cbn [from_option]; [by rewrite length_fmap|done].
  - rewrite react_spec. destruct (kernel_of rx) as [f|].
    + case_decide; [|lia]. split; [done|]. split; [|done].
      apply map_prefix_length.
    + done.
Qed.

(** C9: the buffer a [react] call returns does not depend on the queue,
    that is on the interleaving of the work-items' loads and stores. *)
Theorem react_deterministic (q1 q2 : queue) (rx : Reaction) (io : vector) :
  react q1 rx io = react q2 rx io.
Proof. by rewrite !react_spec. Qed.

(** ** Handles *)

(** C8: [make_reaction<ReactionA>] and [make_reaction<ReactionB>] return a
    non-null handle for every argument: the cast to [Reaction] finds
    [Reaction] among the bases of the class, the handle holds the
    constructed object, and a call through it is the virtual call on
    that object. *)
Theorem make_reaction_succeeds :
  (forall a : double,
      is_base_of C_Reaction C_ReactionA = true /\
      make_reaction ReactionA a = Some (Reaction_of_A (ReactionA_new a))) /\
  (forall b : Z,
      is_base_of C_Reaction C_ReactionB = true /\
      make_reaction ReactionB b = Some (Reaction_of_B (ReactionB_new b))) /\
  (forall (q : queue) (obj : Reaction) (io : vector),
      handle_react q (Some obj) io =
        prod_map Some id <$> react q obj io).
Proof.
  split; [|split].
  - intros a. split; reflexivity.
  - intros b. split; reflexivity.
  - intros q obj io. unfold handle_react.
    by destruct (react q obj io) as [[obj' io']|].
Qed.

Lemma handle_react_make_A (q : queue) (a : double) (io : vector) :
  handle_react q (make_reaction ReactionA a) io =
    prod_map (Some ∘ Reaction_of_A) id <$> ReactionBase_react q (ReactionA_new a) io.
Proof.
  cbn [make_reaction make_shared dynamic_pointer_cast_Reaction
       construct as_Reaction ReactionA_Class].
  change (is_base_of C_Reaction class_of) with true. cbn match.
  unfold handle_react, react.
  by destruct (ReactionBase_react q (ReactionA_new a) io) as [[r' io']|].
Qed.

Lemma handle_react_make_B (q : queue) (b : Z) (io : vector) :
  handle_react q (make_reaction ReactionB b) io =
    prod_map (Some ∘ Reaction_of_B) id <$> ReactionBase_react q (ReactionB_new b) io.
Proof.
  cbn [make_reaction make_shared dynamic_pointer_cast_Reaction
       construct as_Reaction ReactionB_Class].
  change (is_base_of C_Reaction class_of) with true. cbn match.
  unfold handle_react, react.
  by destruct (ReactionBase_react q (ReactionB_new b) io) as [[r' io']|].
Qed.

(** The loop over the handles [{multiply(a), add(b)}]: it shows the buffer
    after each of the two direct calls and ends with the last one. *)
Lemma react_all_pair (q : queue) (a : double) (b : Z) (io : vector)
    (out : list vector) :
  react_all q [make_reaction ReactionA a; make_reaction ReactionB b] io out =
    match ReactionBase_react q (ReactionA_new a) io with
    | Some (_, io1) =>
        match ReactionBase_react q (ReactionB_new b) io1 with
        | Some (_, io2) => Some (io2, (out ++ [io1]) ++ [io2])
        | None => None
        end
    | None => None
    end.
Proof.
  cbn [react_all]. rewrite handle_react_make_A.
  destruct (ReactionBase_react q (ReactionA_new a) io) as [[r1 io1]|]; [|done].
  cbn [fmap option_fmap option_map prod_map fst snd id].
  rewrite handle_react_make_B.
  by destruct (ReactionBase_react q (ReactionB_new b) io1) as [[r2 io2]|].
Qed.

Lemma main_spec (q : queue) :
  main q =
    Some [iota 32; times_0_1 <$> iota 32; plus_2 <$> (times_0_1 <$> iota 32);
          times_0_1 <$> iota 32; plus_2 <$> (times_0_1 <$> iota 32)].
Proof.
  assert (Hfit : forall v : vector, length v = 32%nat -> size v <= INT_MAX).
  { intros v Hv. unfold size, INT_MAX. rewrite Hv. lia. }
  assert (Hiota : length (iota 32) = 32%nat) by reflexivity.
  unfold main. cbv zeta.
  rewrite multiply_react_fits by (by apply Hfit). cbv beta iota.
  rewrite add_react_fits by (apply Hfit; by rewrite length_fmap). cbv beta iota.
  rewrite react_all_pair.
  rewrite multiply_react_fits by (by apply Hfit). cbv beta iota.
  rewrite add_react_fits by (apply Hfit; by rewrite length_fmap).
  reflexivity.
Qed.

(** C3: a call through the handle that [make_reaction] returns leaves the
    buffer that the direct call on the concrete reaction leaves, for
    [ReactionA] with any factor and [ReactionB] with any offset and for
    every buffer; and in [main] the two buffers shown after the calls
    through the handles [{multiply(0.1), add(2)}] on [0..31] are the two
    buffers shown after the direct calls. *)
Theorem handle_dispatch_agrees :
  (forall (q : queue) (a : double) (io : vector),
      snd <$> handle_react q (make_reaction ReactionA a) io =
        snd <$> ReactionBase_react q (ReactionA_new a) io) /\
  (forall (q : queue) (b : Z) (io : vector),
      snd <$> handle_react q (make_reaction ReactionB b) io =
        snd <$> ReactionBase_react q (ReactionB_new b) io) /\
  (forall q : queue,
      fst <$> react_all q [make_reaction ReactionA lit_0_1; make_reaction ReactionB 2]
                (iota 32) [] =
        multiply_then_add q lit_0_1 2 (iota 32)) /\
  (forall q : queue,
      exists d1 d2 : vector, main q = Some [iota 32; d1; d2; d1; d2]).
Proof.
  split; [|split; [|split]].
  - intros q a io. rewrite handle_react_make_A.
    by destruct (ReactionBase_react q (ReactionA_new a) io) as [[r' io']|].
  - intros q b io. rewrite handle_react_make_B.
    by destruct (ReactionBase_react q (ReactionB_new b) io) as [[r' io']|].
  - intros q. rewrite react_all_pair. unfold multiply_then_add.
    destruct (ReactionBase_react q (ReactionA_new lit_0_1) (iota 32))
      as [[r1 io1]|]; [|done].
    by destruct (ReactionBase_react q (ReactionB_new 2) io1) as [[r2 io2]|].
  - intros q. rewrite main_spec. eauto.
Qed.

(** ** The concrete scenario *)

Lemma iota_first_last :
  length (iota 32) = 32%nat /\
  take 4 (iota 32) = [0; 1; 2; 3]%float /\
  last (iota 32) = Some 31%float.
Proof. repeat split; by vm_compute. Qed.

Lemma scenario_multiply :
  times_0_1 <$> iota 32 =
    one_ulp_up [3; 6; 7; 12; 14; 17; 19; 23; 24; 28; 29]%nat spec_after_multiply.
Proof. by vm_compute. Qed.

Lemma scenario_add :
  plus_2 <$> (times_0_1 <$> iota 32) =
    one_ulp_up [14; 19; 23; 28]%nat spec_after_add.
Proof. by vm_compute. Qed.

(** C6, as stated, does not hold: on [0..31] the multiply reaction with
    factor 0.1 does not return [0.0, 0.1, ..., 3.1] (element 3 is
    0.30000000000000004, not 0.3), and the add reaction with offset 2 then
    does not return [2.0, 2.1, ..., 5.1] (element 14 is
    3.4000000000000004, not 3.4). *)
Lemma scenario_not_decimal :
  ReactionBase_react in_order_queue (ReactionA_new lit_0_1) (iota 32) <>
    Some (ReactionA_new lit_0_1, spec_after_multiply) /\
  multiply_then_add in_order_queue lit_0_1 2 (iota 32) <> Some spec_after_add.
Proof.
  split.
  - intros Heq.
    apply (f_equal (fun r => r ≫= fun p => Prim2SF <$> snd p !! 3%nat)) in Heq.
    vm_compute in Heq. discriminate Heq.
  - intros Heq.
    apply (f_equal (fun r => r ≫= fun v => Prim2SF <$> v !! 14%nat)) in Heq.
    vm_compute in Heq. discriminate Heq.
Qed.

(** C6, amended: on [0..31] the multiply reaction with factor 0.1 returns
    the listed values [0.0, 0.1, ..., 3.1] except at the indices 3, 6, 7,
    12, 14, 17, 19, 23, 24, 28 and 29, where it returns the next double
    above the listed one; the add reaction with offset 2 then returns the
    listed values [2.0, 2.1, ..., 5.1] except at the indices 14, 19, 23
    and 28, where it returns the next double above the listed one. *)
Theorem scenario_values (q : queue) :
  let after_multiply :=
    one_ulp_up [3; 6; 7; 12; 14; 17; 19; 23; 24; 28; 29]%nat spec_after_multiply in
  let after_add := one_ulp_up [14; 19; 23; 28]%nat spec_after_add in
  ReactionBase_react q (ReactionA_new lit_0_1) (iota 32) =
    Some (ReactionA_new lit_0_1, after_multiply) /\
  ReactionBase_react q (ReactionB_new 2) after_multiply =
    Some (ReactionB_new 2, after_add) /\
  main q = Some [iota 32; after_multiply; after_add; after_multiply; after_add].
Proof.
  cbv zeta. rewrite <- scenario_add, <- scenario_multiply.
  split; [|split].
  - by rewrite multiply_react_fits.
  - rewrite add_react_fits; [done|]. unfold size. by rewrite length_fmap.
  - apply main_spec.
Qed.

(** * Further properties of the code *)

(** ** [ReactionBase::react] on buffers of every size *)

Lemma launched_by_size (n : Z) :
  0 <= n ->
  launched n =
    if decide (n mod 2 ^ 32 <= INT_MAX) then Z.to_nat (n mod 2 ^ 32)
    else Z.to_nat (2 ^ 64 - 2 ^ 32 + n mod 2 ^ 32).
Proof.
  intros Hn.
  pose proof (Z.div_mod n (2 ^ 32) ltac:(lia)) as Hdm.
  pose proof (Z.mod_pos_bound n (2 ^ 32) ltac:(lia)) as Hr.
  pose proof (Z.div_pos n (2 ^ 32) Hn ltac:(lia)) as Hm.
  set (r := n mod 2 ^ 32) in *. set (m := n / 2 ^ 32) in *.
  case_decide as Hfit.
  - rewrite Hdm. apply launched_wraps; lia.
  - unfold launched, size_t_of_int, int_of_size_t, INT_MAX in *.
    replace (n + 2 ^ 31) with (r - 2 ^ 31 + (m + 1) * 2 ^ 32) by lia.
    rewrite Z.mod_add by lia.
    rewrite (Z.mod_small (r - 2 ^ 31)) by lia.
    replace (r - 2 ^ 31 - 2 ^ 31) with (2 ^ 64 - 2 ^ 32 + r + -1 * 2 ^ 64) by lia.
    rewrite Z.mod_add by lia.
    rewrite Z.mod_small by lia. reflexivity.
Qed.

(** X1: for a buffer of fewer than 2^64 - 2^32 elements, [react] is
    decided by the size modulo 2^32: when that residue fits an [int],
    exactly that many leading elements are updated and the others are
    kept; otherwise the call is undefined. *)
Theorem react_by_size {R : Type} `{DerivedReaction R}
    (q : queue) (self : R) (io : vector) :
  size io < 2 ^ 64 - 2 ^ 32 ->
  ReactionBase_react q self io =
    if decide (size io mod 2 ^ 32 <= INT_MAX)
    then Some (self, map_prefix (apply (get_device_data self))
                       (Z.to_nat (size io mod 2 ^ 32)) io)
    else None.
Proof.
  intros Hsize. rewrite ReactionBase_react_spec.
  assert (Hpos : 0 <= size io) by (unfold size; lia).
  rewrite (launched_by_size (size io) Hpos).
  pose proof (Z.mod_pos_bound (size io) (2 ^ 32) ltac:(lia)) as Hr.
  pose proof (Z.mod_le (size io) (2 ^ 32) Hpos ltac:(lia)) as Hle.
  destruct (decide (size io mod 2 ^ 32 <= INT_MAX)) as [Hfit|Hfit].
  - rewrite decide_True; [done|]. unfold size in *. lia.
  - rewrite decide_False; [done|]. unfold size in *. lia.
Qed.

Lemma react_by_size_witness :
  size [1; 2; 3]%float < 2 ^ 64 - 2 ^ 32 /\
  ReactionBase_react lockstep_queue (ReactionA_new 2) [1; 2; 3]%float =
    Some (ReactionA_new 2, [2; 4; 6]%float).
Proof.
  split; [by vm_compute|].
  exact (react_by_size lockstep_queue (ReactionA_new 2) [1; 2; 3]%float eq_refl).
Defined.

(** X5: reacting to a buffer made of two parts gives the two parts
    reacted to separately, on queues of their own, and put together. *)
Theorem react_app {R : Type} `{DerivedReaction R}
    (q q1 q2 : queue) (self : R) (io1 io2 : vector) :
  size (io1 ++ io2) <= INT_MAX ->
  ReactionBase_react q self (io1 ++ io2) =
    match ReactionBase_react q1 self io1, ReactionBase_react q2 self io2 with
    | Some (_, out1), Some (_, out2) => Some (self, out1 ++ out2)
    | _, _ => None
    end.
Proof.
  intros Hfit. unfold size in Hfit. rewrite length_app in Hfit.
  rewrite !ReactionBase_react_fits by (unfold size; rewrite ?length_app; lia).
  by rewrite fmap_app.
Qed.

Lemma react_app_witness :
  size ([1; 2]%float ++ [3]%float) <= INT_MAX /\
  ReactionBase_react in_order_queue (ReactionB_new 2) ([1; 2]%float ++ [3]%float) =
    match ReactionBase_react lockstep_queue (ReactionB_new 2) [1; 2]%float,
          ReactionBase_react in_order_queue (ReactionB_new 2) [3]%float with
    | Some (_, out1), Some (_, out2) => Some (ReactionB_new 2, out1 ++ out2)
    | _, _ => None
    end.
Proof.
  split; [by vm_compute|].
  apply (react_app in_order_queue lockstep_queue in_order_queue). by vm_compute.
Defined.

(** X6: the element at an index of the returned buffer depends on the
    element at that index of the given buffer only: two buffers that
    agree at [j] give results that agree at [j], whatever their other
    elements and the queues. *)
Theorem react_local {R : Type} `{DerivedReaction R}
    (q q' : queue) (self : R) (io io' : vector) (j : nat) :
  size io <= INT_MAX -> size io' <= INT_MAX ->
  io !! j = io' !! j ->
  (ReactionBase_react q self io ≫= fun p => p.2 !! j) =
  (ReactionBase_react q' self io' ≫= fun p => p.2 !! j).
Proof.
  intros Hfit Hfit' Hj.
  rewrite !ReactionBase_react_fits by done. cbn [mbind option_bind snd].
  by rewrite !list_lookup_fmap, Hj.
Qed.

Lemma react_local_witness :
  size [1; 2; 3]%float <= INT_MAX /\ size [7; 2]%float <= INT_MAX /\
  [1; 2; 3]%float !! 1%nat = [7; 2]%float !! 1%nat /\
  (ReactionBase_react in_order_queue (ReactionA_new 2) [1; 2; 3]%float
     ≫= fun p => p.2 !! 1%nat) =
  (ReactionBase_react lockstep_queue (ReactionA_new 2) [7; 2]%float
     ≫= fun p => p.2 !! 1%nat).
Proof.
  split; [by vm_compute|]. split; [by vm_compute|]. split; [reflexivity|].
  apply react_local; by vm_compute.
Defined.

(** ** The loop over the handles *)

Lemma effect_size (rx : Reaction) (d : vector) : size (effect rx d) = size d.
Proof.
  unfold effect, size. destruct (kernel_of rx); cbn [from_option]; [|done].
  by rewrite length_fmap.
Qed.

Lemma react_all_spec (q : queue) (rxs : list Reaction) (d : vector)
    (out : list vector) :
  size d <= INT_MAX ->
  react_all q (Some <$> rxs) d out =
    Some (foldl (fun d rx => effect rx d) d rxs, out ++ shown rxs d).
Proof.
  revert d out. induction rxs as [|rx rxs IH]; intros d out Hfit.
  - cbn. by rewrite app_nil_r.
  - cbn [fmap list_fmap react_all foldl shown]. unfold handle_react.
    rewrite react_fits by done. fold (effect rx d).
    change (list_fmap _ _ Some rxs) with (Some <$> rxs).
    rewrite IH by (by rewrite effect_size).
    by rewrite <- app_assoc.
Qed.

Lemma foldl_effect_replicate (rx : Reaction) (n : nat) (d : vector) :
  foldl (fun d rx => effect rx d) d (replicate n rx) =
    from_option (fun f => Nat.iter n f <$> d) d (kernel_of rx).
Proof.
  revert d. induction n as [|n IH]; intros d.
  - cbn [replicate foldl]. destruct (kernel_of rx); cbn [from_option Nat.iter]; [|done].
    by rewrite list_fmap_id.
  - cbn [replicate foldl]. rewrite IH. unfold effect.
    destruct (kernel_of rx) as [f|]; cbn [from_option]; [|done].
    rewrite <- list_fmap_compose. apply list_fmap_ext. intros i x _.
    cbn [compose]. symmetry. apply Nat.iter_succ_r.
Qed.

(** X2: on a buffer whose length fits an [int], the loop over non-null
    handles applies the element updates of the reactions one after the
    other, in the order of the collection (a plain [Reaction] changes
    nothing), and shows one buffer per reaction. *)
Theorem react_all_composes (q : queue) (rxs : list Reaction) (d : vector)
    (out : list vector) :
  size d <= INT_MAX ->
  react_all q (Some <$> rxs) d out =
    Some (foldl (fun d rx => effect rx d) d rxs, out ++ shown rxs d) /\
  length (shown rxs d) = length rxs /\
  Forall (fun v => length v = length d) (shown rxs d).
Proof.
  intros Hfit. split; [by apply react_all_spec|].
  clear Hfit. revert d. induction rxs as [|rx rxs IH]; intros d; [by split|].
  destruct (IH (effect rx d)) as [Hlen Hall].
  assert (Hsame : length (effect rx d) = length d).
  { pose proof (effect_size rx d) as Hs. unfold size in Hs. lia. }
  cbn [shown length]. split; [by rewrite Hlen|].
  constructor; [done|].
  eapply Forall_impl; [exact Hall|]. intros v Hv. cbn in Hv. congruence.
Qed.

Lemma react_all_composes_witness :
  size [1; 2]%float <= INT_MAX /\
  (react_all lockstep_queue
     (Some <$> [Reaction_of_B (ReactionB_new 2); Reaction_plain;
                Reaction_of_A (ReactionA_new 2)])
     [1; 2]%float [] =
     Some ([6; 8]%float, [[3; 4]; [3; 4]; [6; 8]]%float) /\
   length (shown [Reaction_of_B (ReactionB_new 2); Reaction_plain;
                  Reaction_of_A (ReactionA_new 2)] [1; 2]%float) = 3%nat /\
   Forall (fun v => length v = 2%nat)
     (shown [Reaction_of_B (ReactionB_new 2); Reaction_plain;
             Reaction_of_A (ReactionA_new 2)] [1; 2]%float)).
Proof.
  split; [by vm_compute|].
  refine (react_all_composes lockstep_queue
            [Reaction_of_B (ReactionB_new 2); Reaction_plain;
             Reaction_of_A (ReactionA_new 2)] [1; 2]%float [] _).
  by vm_compute.
Defined.

(** X3: [react] is not idempotent: the loop over [n] copies of one
    handle applies the element update of its reaction [n] times to every
    element. *)
Theorem react_repeated (q : queue) (rx : Reaction) (n : nat) (d : vector)
    (out : list vector) :
  size d <= INT_MAX ->
  fst <$> react_all q (replicate n (Some rx)) d out =
    Some (from_option (fun f => Nat.iter n f <$> d) d (kernel_of rx)).
Proof.
  intros Hfit. rewrite <- fmap_replicate, react_all_spec by done.
  cbn [fmap option_fmap option_map fst]. by rewrite foldl_effect_replicate.
Qed.

Lemma react_repeated_witness :
  size [1; 2; 3]%float <= INT_MAX /\
  fst <$> react_all in_order_queue
            (replicate 2 (make_reaction ReactionA 2%float)) [1; 2; 3]%float [] =
    Some [4; 8; 12]%float.
Proof.
  split; [by vm_compute|].
  refine (react_repeated in_order_queue (Reaction_of_A (ReactionA_new 2)) 2
            [1; 2; 3]%float [] _).
  by vm_compute.
Defined.

(** X4: a null handle anywhere in the collection makes the loop
    undefined, whatever the reactions before it did. *)
Theorem react_all_null_handle (q : queue) (reactions : list (shared_ptr Reaction))
    (d : vector) (out : list vector) :
  None ∈ reactions -> react_all q reactions d out = None.
Proof.
  revert d out. induction reactions as [|rx rest IH]; intros d out Hnull.
  - by apply elem_of_nil in Hnull.
  - cbn [react_all]. destruct rx as [obj|]; [|done].
    apply elem_of_cons in Hnull as [Heq|Hin]; [done|].
    destruct (handle_react q (Some obj) d) as [[h d']|]; [|done].
    by apply IH.
Qed.

Lemma react_all_null_handle_witness :
  None ∈ [make_reaction ReactionA 2%float; None] /\
  react_all in_order_queue [make_reaction ReactionA 2%float; None] [1]%float [] = None.
Proof.
  split; [by right; left|].
  apply react_all_null_handle. by right; left.
Defined.

(** ** Special values of the element updates *)

Lemma mul_nan_l (a : double) : PrimFloat.mul nan a = nan.
Proof.
  apply Prim2SF_inj. rewrite mul_spec.
  change (Prim2SF nan) with S754_nan.
  by destruct (Prim2SF a).
Qed.

Lemma mul_nan_r (d : double) : PrimFloat.mul d nan = nan.
Proof.
  apply Prim2SF_inj. rewrite mul_spec.
  change (Prim2SF nan) with S754_nan.
  by destruct (Prim2SF d).
Qed.

Lemma add_nan_l (y : double) : PrimFloat.add nan y = nan.
Proof.
  apply Prim2SF_inj. rewrite add_spec.
  change (Prim2SF nan) with S754_nan.
  by destruct (Prim2SF y).
Qed.

Lemma kernel_keeps_nan (rx : Reaction) (f : double -> double) :
  kernel_of rx = Some f -> f nan = nan.
Proof.
  destruct rx as [|r|r]; cbn [kernel_of]; intros Hf; simplify_eq.
  - apply mul_nan_l.
  - apply add_nan_l.
Qed.

(** X7: on a buffer whose length fits an [int], an element that is NaN is
    still NaN after a [react] call of any reaction, and the multiply
    reaction built with a NaN factor turns every element into NaN. *)
Theorem react_nan (q : queue) (rx : Reaction) (io : vector) :
  size io <= INT_MAX ->
  (forall j : nat,
      io !! j = Some nan ->
      (react q rx io ≫= fun p => p.2 !! j) = Some nan) /\
  ReactionBase_react q (ReactionA_new nan) io =
    Some (ReactionA_new nan, replicate (length io) nan).
Proof.
  intros Hfit. split.
  - intros j Hj. rewrite react_fits by done. cbn [mbind option_bind snd].
    destruct (kernel_of rx) as [f|] eqn:Hf; cbn [from_option]; [|done].
    rewrite list_lookup_fmap, Hj. cbn. f_equal. by eapply kernel_keeps_nan.
  - rewrite multiply_react_fits by done. do 2 f_equal.
    clear Hfit. induction io as [|x io IH]; [done|].
    cbn [fmap list_fmap length replicate]. f_equal; [apply mul_nan_r|exact IH].
Qed.

Lemma react_nan_witness :
  size [1; nan; 3]%float <= INT_MAX /\
  (forall j : nat,
      [1; nan; 3]%float !! j = Some nan ->
      (react lockstep_queue (Reaction_of_B (ReactionB_new 2)) [1; nan; 3]%float
         ≫= fun p => p.2 !! j) = Some nan) /\
  ReactionBase_react lockstep_queue (ReactionA_new nan) [1; nan; 3]%float =
    Some (ReactionA_new nan, replicate (length [1; nan; 3]%float) nan).
Proof.
  split; [by vm_compute|].
  apply react_nan. by vm_compute.
Defined.

Lemma SFmul_opp_l (x y : spec_float) :
  SFmul prec emax (SFopp x) y = SFopp (SFmul prec emax x y).
Proof.
  destruct x as [sx| sx| |sx mx ex], y as [sy| sy| |sy my ey];
    cbn [SFmul SFopp]; try reflexivity;
    try (by destruct sx, sy).
  unfold binary_round_aux.
  destruct (shr_fexp prec emax (Z.pos (mx * my)) (ex + ey) loc_Exact) as [mrs e'].
  destruct (shr_fexp prec emax
              (round_nearest_even (shr_m mrs) (loc_of_shr_record mrs)) e' loc_Exact)
    as [mrs'' e''].
  destruct (shr_m mrs'') as [|m|m]; [| destruct (e'' <=? emax - prec) |];
    by destruct sx, sy.
Qed.

Lemma mul_opp_l (d a : double) :
  PrimFloat.mul (PrimFloat.opp d) a = PrimFloat.opp (PrimFloat.mul d a).
Proof.
  apply Prim2SF_inj. rewrite mul_spec, !opp_spec, mul_spec. apply SFmul_opp_l.
Qed.

(** X10: the multiply reaction has no sign bias: on a buffer whose
    length fits an [int], at every index where the product of the element
    and the factor is not NaN, reacting to the negated buffer gives the
    negation of what reacting to the buffer gives.  (Where the product is
    NaN both results are NaN; the sign of a NaN is not represented, so
    those elements are left out.) *)
Theorem multiply_react_opp (q q' : queue) (a : double) (io : vector)
    (j : nat) (x : double) :
  size io <= INT_MAX ->
  io !! j = Some x ->
  PrimFloat.mul x a <> nan ->
  (ReactionBase_react q (ReactionA_new a) (PrimFloat.opp <$> io)
     ≫= fun p => p.2 !! j) =
    PrimFloat.opp <$>
      (ReactionBase_react q' (ReactionA_new a) io ≫= fun p => p.2 !! j).
Proof.
  intros Hfit Hj _.
  rewrite !multiply_react_fits by (unfold size in *; by rewrite ?length_fmap).
  cbn [mbind option_bind snd]. rewrite !list_lookup_fmap, Hj.
  cbn [fmap option_fmap option_map]. f_equal. apply mul_opp_l.
Qed.

Lemma multiply_react_opp_witness :
  size [1; 3; 7]%float <= INT_MAX /\
  [1; 3; 7]%float !! 1%nat = Some 3%float /\
  PrimFloat.mul 3 lit_0_1 <> nan /\
  (ReactionBase_react in_order_queue (ReactionA_new lit_0_1)
       (PrimFloat.opp <$> [1; 3; 7]%float) ≫= fun p => p.2 !! 1%nat) =
    PrimFloat.opp <$>
      (ReactionBase_react lockstep_queue (ReactionA_new lit_0_1) [1; 3; 7]%float
         ≫= fun p => p.2 !! 1%nat).
Proof.
  split; [by vm_compute|]. split; [reflexivity|].
  split; [apply double_neq; by vm_compute|].
  apply (multiply_react_opp in_order_queue lockstep_queue lit_0_1 [1; 3; 7]%float
           1 3%float);
    [by vm_compute | reflexivity | apply double_neq; by vm_compute].
Defined.

(** ** Work-items do not interfere *)

(** X8: memory events of two different work-items commute: performing
    an event of [i] and then one of [j] leaves the buffer and the
    work-items as performing them in the other order does, and one order
    is undefined exactly when the other is. *)
Theorem wi_step_commute (f : double -> double) (i j : nat)
    (st : vector * wi_table) :
  i <> j ->
  (wi_step f i st ≫= wi_step f j) = (wi_step f j st ≫= wi_step f i).
Proof.
  intros Hne. destruct st as [mem tbl]. unfold wi_step.
  destruct (tbl !! i) as [[vi|]|] eqn:Hi, (tbl !! j) as [[vj|]|] eqn:Hj;
    try destruct (mem !! i) as [xi|] eqn:Hmi;
    try destruct (mem !! j) as [xj|] eqn:Hmj;
    cbn [mbind option_bind];
    rewrite ?lookup_insert_ne by done;
    rewrite ?list_lookup_insert_ne by done;
    rewrite ?Hi, ?Hj, ?Hmi, ?Hmj; try reflexivity.
  all: f_equal; f_equal;
    first [ apply list_insert_insert_ne; done
          | apply insert_insert_ne; done ].
Qed.

Lemma wi_step_commute_witness :
  0%nat <> 1%nat /\
  (wi_step (fun d => PrimFloat.mul d 2) 0 ([1; 2]%float, ∅)
     ≫= wi_step (fun d => PrimFloat.mul d 2) 1) =
  (wi_step (fun d => PrimFloat.mul d 2) 1 ([1; 2]%float, ∅)
     ≫= wi_step (fun d => PrimFloat.mul d 2) 0).
Proof.
  split; [done|]. apply wi_step_commute. done.
Defined.

(** ** The neutral factor and the neutral offset *)

Lemma shr_52 (m : positive) :
  SpecFloat.iter_pos shr_1 52
    {| shr_m := Z.pos (4503599627370496 * m); shr_r := false; shr_s := false |} =
    {| shr_m := Z.pos m; shr_r := false; shr_s := false |}.
Proof. reflexivity. Qed.

Lemma digits2_pos_xO (p : positive) :
  digits2_pos (p~0) = Pos.succ (digits2_pos p).
Proof. reflexivity. Qed.

Lemma Zdigits2_52 (m : positive) :
  Zdigits2 (Z.pos (4503599627370496 * m)) = Zdigits2 (Z.pos m) + 52.
Proof.
  cbn [Zdigits2]. lazy beta iota delta [Pos.mul PosDef.Pos.mul].
  rewrite !digits2_pos_xO. lia.
Qed.

Lemma SFmul_one_r (x : spec_float) :
  valid_binary x = true ->
  SF64mul x (S754_finite false 4503599627370496 (-52)) = x.
Proof.
  unfold valid_binary, SF64mul.
  destruct x as [s|s| |s m e]; cbn [SFmul SpecFloat.valid_binary];
    try (by destruct s); [done|].
  intros Hb. unfold bounded, canonical_mantissa in Hb.
  apply andb_prop in Hb as [Hcanon Hexp].
  apply Z.eqb_eq in Hcanon.
  rewrite xorb_false_r, Pos.mul_comm.
  unfold binary_round_aux, shr_fexp.
  rewrite Zdigits2_52.
  replace (Zdigits2 (Z.pos m) + 52 + (e + -52)) with (Z.pos (digits2_pos m) + e)
    by (cbn [Zdigits2]; lia).
  rewrite Hcanon.
  replace (e - (e + -52)) with 52 by lia.
  cbn [shr shr_record_of_loc]. rewrite shr_52.
  cbn [shr_m loc_of_shr_record round_nearest_even Zdigits2].
  replace (e + -52 + 52) with e by lia.
  rewrite Hcanon, Z.sub_diag. cbn [shr shr_m].
  by rewrite Hexp.
Qed.

Lemma mul_one_r (d : double) : PrimFloat.mul d 1 = d.
Proof.
  apply Prim2SF_inj. rewrite mul_spec.
  change (Prim2SF 1) with (S754_finite false 4503599627370496 (-52)).
  apply SFmul_one_r, Prim2SF_valid.
Qed.

(** X11: the multiply reaction with factor 1 returns every buffer that
    holds no NaN and whose length fits an [int] exactly as it was given,
    signed zeros and infinities included.  (A NaN
    element stays NaN; its payload is not represented, so buffers with a
    NaN are left out.) *)
Theorem multiply_by_one (q : queue) (io : vector) :
  size io <= INT_MAX ->
  Forall (fun x : double => x <> nan) io ->
  ReactionBase_react q (ReactionA_new 1) io = Some (ReactionA_new 1, io).
Proof.
  intros Hfit _. rewrite multiply_react_fits by done. do 2 f_equal.
  rewrite <- (list_fmap_id io) at 2. apply list_fmap_ext.
  intros i x _. apply mul_one_r.
Qed.

Lemma multiply_by_one_witness :
  size [0x1.999999999999ap-4; -0; infinity; 0x1p-1074]%float <= INT_MAX /\
  Forall (fun x : double => x <> nan)
    [0x1.999999999999ap-4; -0; infinity; 0x1p-1074]%float /\
  ReactionBase_react lockstep_queue (ReactionA_new 1)
      [0x1.999999999999ap-4; -0; infinity; 0x1p-1074]%float =
    Some (ReactionA_new 1, [0x1.999999999999ap-4; -0; infinity; 0x1p-1074]%float).
Proof.
  assert (Hnan : Forall (fun x : double => x <> nan)
                   [0x1.999999999999ap-4; -0; infinity; 0x1p-1074]%float)
    by (repeat constructor; apply double_neq; by vm_compute).
  split; [by vm_compute|]. split; [exact Hnan|].
  apply multiply_by_one; [by vm_compute|exact Hnan].
Defined.

Lemma add_zero_r (d : double) :
  PrimFloat.add d (double_of_int 0) =
    match Prim2SF d with
    | S754_zero true => 0%float
    | _ => d
    end.
Proof.
  apply Prim2SF_inj. rewrite add_spec.
  change (Prim2SF (double_of_int 0)) with (S754_zero false).
  destruct (Prim2SF d) as [[|]| | |] eqn:Hd; cbn [SF64add SFadd Bool.eqb];
    rewrite ?Hd; reflexivity.
Qed.

(** X12: the add reaction with offset 0 keeps every element of a buffer
    whose length fits an [int], except negative zero, which it turns into
    positive zero. *)
Theorem add_zero (q : queue) (io : vector) (j : nat) (x : double) :
  size io <= INT_MAX ->
  io !! j = Some x ->
  (x <> (-0)%float ->
   (ReactionBase_react q (ReactionB_new 0) io ≫= fun p => p.2 !! j) = Some x) /\
  (x = (-0)%float ->
   (ReactionBase_react q (ReactionB_new 0) io ≫= fun p => p.2 !! j) = Some 0%float).
Proof.
  intros Hfit Hj. rewrite add_react_fits by done.
  cbn [mbind option_bind snd]. rewrite list_lookup_fmap, Hj.
  cbn [fmap option_fmap option_map]. rewrite add_zero_r. split.
  - intros Hx. f_equal.
    destruct (Prim2SF x) as [[|]| | |] eqn:Hd; try reflexivity.
    exfalso. apply Hx. apply Prim2SF_inj. by rewrite Hd.
  - intros ->. reflexivity.
Qed.

Lemma add_zero_witness :
  size [2; -0]%float <= INT_MAX /\
  [2; -0]%float !! 1%nat = Some (-0)%float /\
  ((-0)%float <> (-0)%float ->
   (ReactionBase_react in_order_queue (ReactionB_new 0) [2; -0]%float
      ≫= fun p => p.2 !! 1%nat) = Some (-0)%float) /\
  ((-0)%float = (-0)%float ->
   (ReactionBase_react in_order_queue (ReactionB_new 0) [2; -0]%float
      ≫= fun p => p.2 !! 1%nat) = Some 0%float).
Proof.
  split; [by vm_compute|]. split; [reflexivity|].
  apply add_zero; [by vm_compute|reflexivity].
Defined.

(** ** The model runs: checks on small buffers *)

Example multiply_twice_in_order :
  multiply_then_add in_order_queue 2 0 [1; 2; 3]%float = Some [2; 4; 6]%float /\
  (ReactionBase_react in_order_queue (ReactionA_new 2) [1; 2; 3]%float
     ≫= fun '(r, d) => ReactionBase_react lockstep_queue r d) =
    Some (ReactionA_new 2, [4; 8; 12]%float).
Proof. split; by vm_compute. Qed.

Example lockstep_events :
  schedule lockstep_queue 3 = [0; 1; 2; 2; 1; 0]%nat /\
  schedule in_order_queue 3 = [0; 0; 1; 1; 2; 2]%nat.
Proof. split; reflexivity. Qed.

Example out_of_range_load :
  parallel_for in_order_queue 4 (fun d => d) [1; 2; 3]%float = None /\
  parallel_for in_order_queue 2 (fun d => PrimFloat.opp d) [1; 2; 3]%float =
    Some [-1; -2; 3]%float.
Proof. split; by vm_compute. Qed.

Example handles_in_main :
  make_reaction ReactionA lit_0_1 = Some (Reaction_of_A (ReactionA_new lit_0_1)) /\
  handle_react lockstep_queue None [1]%float = None /\
  (snd <$> handle_react lockstep_queue (make_reaction ReactionB 2) [1; 2]%float) =
    Some [3; 4]%float.
Proof. repeat split; by vm_compute. Qed.

Example narrowing :
  int_of_size_t 32 = 32 /\ int_of_size_t (2 ^ 32 + 1) = 1 /\
  int_of_size_t (2 ^ 31) = INT_MIN /\
  size_t_of_int INT_MIN = 2 ^ 64 - 2 ^ 31.
Proof. repeat split; reflexivity. Qed.
